(** * sgl::slangpy — Shape and CallContext (src/sgl/utils/slangpy.h)

    A shallow embedding of the [Shape] value class and of [CallContext],
    with the machine arithmetic of the C++ types written out:
    - [int] is a 32-bit signed integer, carried as a [Z]; arithmetic on
      it that overflows is undefined in C++ and is a [Fail Undefined]
      outcome here;
    - [size_t] is an unsigned [w]-bit integer, carried as a [Z], where the
      width [w] of the target is a parameter (64 on the usual targets);
    - [std::optional<std::vector<int>>] is [option (list Z)];
    - a C++ exception or an unchecked access is a [Fail] outcome of the
      [result] monad. *)

From Stdlib Require Import ZArith Lia Ascii String.
From stdpp Require Import base option list strings.

Local Open Scope Z_scope.

(** ** Machine integers *)

Module MachineInt.

Definition INT_MIN : Z := - 2 ^ 31.
Definition INT_MAX : Z := 2 ^ 31 - 1.

(** The values an [int] can hold. *)
Definition int_range (z : Z) : Prop := INT_MIN <= z <= INT_MAX.

Definition in_int_range (z : Z) : bool := (INT_MIN <=? z) && (z <=? INT_MAX).

(** The [int] with the same residue modulo 2^32: the value of a
    conversion to [int], which is defined for every operand (unlike
    signed arithmetic, see [int_mul] below). *)
Definition int_wrap (z : Z) : Z := (z + 2 ^ 31) mod 2 ^ 32 - 2 ^ 31.

(** [size_t] arithmetic on a target whose [size_t] has [w] bits. *)
Definition size_wrap (w : N) (z : Z) : Z := z mod 2 ^ Z.of_N w.

(** Conversion [int -> size_t] (value-preserving modulo 2^w). *)
Definition size_of_int (w : N) (d : Z) : Z := size_wrap w d.

Definition size_mul (w : N) (a b : Z) : Z := size_wrap w (a * b).

(** The cast [(int)n] of a [size_t]: a conversion, not arithmetic, so it
    has a value for every [n] (the residue, as C++20 fixes it). *)
Definition int_of_size (n : Z) : Z := int_wrap n.

End MachineInt.
Import MachineInt.

(** ** Outcomes of a call *)

(** [InvalidState what] is the exception raised by [SGL_THROW(what)];
    [Undefined] marks an operation the code does not check and C++ leaves
    undefined (dereferencing an empty optional, indexing a vector past its
    end, signed overflow). *)
Inductive failure : Type :=
  | InvalidState (what : string)
  | Undefined.

Inductive result (A : Type) : Type :=
  | Ok (a : A)
  | Fail (f : failure).

Arguments Ok {A} a.
Arguments Fail {A} f.

Definition bind {A B : Type} (r : result A) (k : A -> result B) : result B :=
  match r with
  | Ok a => k a
  | Fail f => Fail f
  end.

Notation "'let*' x ':=' r 'in' k" := (bind r (fun x => k))
  (at level 10, x name, r at level 100, k at level 200).

(** Modelled from the spec: the macro [SGL_THROW] of sgl/core/macros.h is
    not part of the sources at hand; the specification calls the error it
    raises from a Shape accessor [InvalidState]. *)
Definition SGL_THROW {A : Type} (what : string) : result A :=
  Fail (InvalidState what).

Definition shape_is_invalid : failure := InvalidState "Shape is invalid".

(** Signed [int] arithmetic: a result that is not an [int] is an overflow,
    which C++ leaves undefined. *)
Definition int_checked (z : Z) : result Z :=
  if in_int_range z then Ok z else Fail Undefined.

Definition int_mul (a b : Z) : result Z := int_checked (a * b).
Definition int_sub (a b : Z) : result Z := int_checked (a - b).

(** ** Enumerations *)

Inductive AccessType : Type := none | read | write | readwrite.

Inductive CallMode : Type := prim | bwds | fwds.

Definition CallMode_value (m : CallMode) : Z :=
  match m with prim => 0 | bwds => 1 | fwds => 2 end.

(** ** Shape *)

Record Shape : Type := mkShape { m_shape : option (list Z) }.

(** [Shape() = default] *)
Definition Shape_default : Shape := mkShape None.

(** [Shape(const std::optional<std::vector<int>>&)] *)
Definition Shape_of_optional (shape : option (list Z)) : Shape := mkShape shape.

(** [Shape(std::initializer_list<int>)] *)
Definition Shape_of_list (shape : list Z) : Shape := mkShape (Some shape).

(** [Shape(const Shape&)] *)
Definition Shape_copy (other : Shape) : Shape := mkShape (m_shape other).


(** [as_vector()], const and non-const alike. *)
Definition as_vector (s : Shape) : result (list Z) :=
  match m_shape s with
  | None => SGL_THROW "Shape is invalid"
  | Some v => Ok v
  end.

(** [valid()] *)
Definition valid (s : Shape) : bool :=
  match m_shape s with Some _ => true | None => false end.

(** [size()] : the length of a vector held in memory, never wrapped. *)
Definition size (s : Shape) : result nat :=
  let* v := as_vector s in Ok (length v).

(** [std::vector::insert(pos, first, last)] at position [pos]. *)
Definition vector_insert_range (v : list Z) (pos : nat) (xs : list Z) : list Z :=
  take pos v ++ xs ++ drop pos v.

(** [operator+] *)
Definition operator_add (s other : Shape) : result Shape :=
  let* this_vec := as_vector s in
  let* other_vec := as_vector other in
  let combined := this_vec in
  let combined := vector_insert_range combined (length combined) other_vec in
  Ok (Shape_of_optional (Some combined)).

(** [operator=] : the assigned-to shape after the assignment. *)
Definition operator_assign (s other : Shape) : Shape := mkShape (m_shape other).

(** Unchecked [v[i]]. *)
Definition vector_at (v : list Z) (i : nat) : result Z :=
  match v !! i with
  | Some d => Ok d
  | None => Fail Undefined
  end.

(** [int operator[](size_t i) const] *)
Definition index (s : Shape) (i : nat) : result Z :=
  let* v := as_vector s in vector_at v i.

(** [int& operator[](size_t i)] followed by a store of [d] through the
    reference: the shape afterwards. *)
Definition index_store (s : Shape) (i : nat) (d : Z) : result Shape :=
  let* v := as_vector s in
  let* d0 := vector_at v i in
  Ok (mkShape (Some (<[i := d]> v))).

(** [concrete()] : the range-for loop with its early return. *)
Fixpoint concrete_loop (v : list Z) : bool :=
  match v with
  | [] => true
  | dim :: rest => if dim =? -1 then false else concrete_loop rest
  end.

Definition concrete (s : Shape) : result bool :=
  let* v := as_vector s in Ok (concrete_loop v).

(** [element_count()] on a target with a [w]-bit [size_t]:
    [result *= dim] converts [dim] to [size_t] and multiplies there. *)
Fixpoint element_count_loop (w : N) (v : list Z) (result : Z) : Z :=
  match v with
  | [] => result
  | dim :: rest => element_count_loop w rest (size_mul w result (size_of_int w dim))
  end.

Definition element_count (w : N) (s : Shape) : result Z :=
  let* v := as_vector s in Ok (element_count_loop w v (size_of_int w 1)).

(** Unchecked [v[i] = x]. *)
Definition vector_store (v : list Z) (i : nat) (x : Z) : result (list Z) :=
  match v !! i with
  | Some _ => Ok (<[i := x]> v)
  | None => Fail Undefined
  end.

(** [calc_contiguous_strides()].  [strides_loop shape n strides total] runs
    the iterations [i = n-1, n-2, ..., 0] of the for loop: the store
    [strides[i] = total], then [total *= shape[i]] in [int]. *)
Fixpoint strides_loop (shape : list Z) (n : nat) (strides : list Z) (total : Z)
  : result (list Z) :=
  match n with
  | O => Ok strides
  | S i =>
      let* strides' := vector_store strides i total in
      let* d := vector_at shape i in
      let* total' := int_mul total d in
      strides_loop shape i strides' total'
  end.

Definition calc_contiguous_strides (s : Shape) : result Shape :=
  if valid s then
    let* shape := as_vector s in
    let total := 1 in
    let strides := replicate (length shape) 1 in
    let* i0 := int_sub (int_of_size (Z.of_nat (length shape))) 1 in
    let* strides' := strides_loop shape (Z.to_nat (i0 + 1)) strides total in
    Ok (Shape_of_optional (Some strides'))
  else Ok Shape_default.

(** [*opt] on an optional, unchecked. *)
Definition deref {A : Type} (o : option A) : result A :=
  match o with
  | Some a => Ok a
  | None => Fail Undefined
  end.

(** [std::equal(first1, last1, first2)] and [operator==] of [std::vector]. *)
Fixpoint std_equal (a b : list Z) : bool :=
  match a, b with
  | [], _ => true
  | x :: a', y :: b' => (x =? y) && std_equal a' b'
  | _ :: _, [] => false
  end.

Definition vector_eqb (a b : list Z) : bool :=
  (length a =? length b)%nat && std_equal a b.

(** [operator==] *)
Definition operator_eq (s o : Shape) : result bool :=
  if negb (eqb (valid s) (valid o)) then Ok false
  else if negb (valid s) && negb (valid o) then Ok true
  else
    let* a := deref (m_shape s) in
    let* b := deref (m_shape o) in
    Ok (vector_eqb a b).

(** ** Rendering *)

(** The default presentation of an [int] by the {fmt} library: its decimal
    digits, preceded by a minus sign when it is negative. *)
Definition digit_char (d : Z) : ascii := ascii_of_nat (48 + Z.to_nat d).

Fixpoint decimal_digits (fuel : nat) (n : Z) (acc : string) : string :=
  match fuel with
  | O => acc
  | S fuel' =>
      let acc' := String (digit_char (n mod 10)) acc in
      if n / 10 =? 0 then acc' else decimal_digits fuel' (n / 10) acc'
  end.

Definition format_int (d : Z) : string :=
  if d <? 0 then String "-" (decimal_digits (S (Z.to_nat (Z.log2 (- d)))) (- d) "")
  else decimal_digits (S (Z.to_nat (Z.log2 d))) d "".

(** [fmt::join(range, sep)] as it is formatted: the first element, then
    the separator before each further element. *)
Fixpoint join_rest (rest : list Z) (sep : string) (out : string) : string :=
  match rest with
  | [] => out
  | d :: rest' => join_rest rest' sep (out +:+ sep +:+ format_int d)
  end.

Definition fmt_join (v : list Z) (sep : string) : string :=
  match v with
  | [] => ""
  | d :: rest => join_rest rest sep (format_int d)
  end.

(** [fmt::format("[{}]", arg)] *)
Definition fmt_format_brackets (arg : string) : string := "[" +:+ arg +:+ "]".

(** [to_string()] *)
Definition to_string (s : Shape) : result string :=
  if negb (valid s) then Ok "[invalid]"
  else let* v := as_vector s in Ok (fmt_format_brackets (fmt_join v ", ")).

(** ** CallContext *)

Section CallContext.

(** The device object lives outside this file: [Device] is the type of
    raw pointers to it. *)
Variable Device : Type.

(** [ref<Device>], the counted handle, and its [get()]. *)
Record ref : Type := mk_ref { get : Device }.

Record CallContext : Type := mkCallContext {
  m_device : ref;
  m_call_shape : Shape;
  m_call_mode : CallMode
}.

(** [CallContext(ref<Device>, const Shape&, CallMode)] *)
Definition CallContext_new (device : ref) (call_shape : Shape)
    (call_mode : CallMode) : CallContext :=
  {| m_device := device;
     m_call_shape := Shape_copy call_shape;
     m_call_mode := call_mode |}.

Definition device (c : CallContext) : Device := get (m_device c).
Definition call_shape (c : CallContext) : Shape := m_call_shape c.
Definition call_mode (c : CallContext) : CallMode := m_call_mode c.

(** The public members of a constructed context, and a call of one of
    them: the value it returns and the context it leaves behind. *)
Inductive CallContext_member : Type := get_device | get_call_shape | get_call_mode.

Inductive CallContext_value : Type :=
  | device_value (d : Device)
  | shape_value (s : Shape)
  | mode_value (m : CallMode).

Definition call_member (op : CallContext_member) (c : CallContext)
  : result CallContext_value * CallContext :=
  match op with
  | get_device => (Ok (device_value (device c)), c)
  | get_call_shape => (Ok (shape_value (call_shape c)), c)
  | get_call_mode => (Ok (mode_value (call_mode c)), c)
  end.

End CallContext.

Arguments mk_ref {Device} _.
Arguments get {Device} _.
Arguments mkCallContext {Device} _ _ _.
Arguments m_device {Device} _.
Arguments m_call_shape {Device} _.
Arguments m_call_mode {Device} _.
Arguments CallContext_new {Device} _ _ _.
Arguments device {Device} _.
Arguments call_shape {Device} _.
Arguments call_mode {Device} _.
Arguments call_member {Device} _ _.
Arguments device_value {Device} _.
Arguments shape_value {Device} _.
Arguments mode_value {Device} _.

(** ** The public members of Shape as one call interface *)




(** ** Specification-level notions *)

(** The product of a sequence of dimensions over the integers. *)
Definition product (ds : list Z) : Z := foldr Z.mul 1 ds.

(** Row-major strides as the specification words them:
    [stride[i] = product(d[i+1..n-1])]. *)
Definition row_major_strides (ds : list Z) : list Z :=
  (fun i => product (drop (S i) ds)) <$> seq 0 (length ds).

(** The bracketed, comma-space separated rendering. *)
Definition bracketed_list (ds : list Z) : string :=
  "[" +:+ String.concat ", " (map format_int ds) +:+ "]".

(** The value of a string of decimal digits, read from the left. *)
Fixpoint digits_value (t : string) (acc : Z) : Z :=
  match t with
  | EmptyString => acc
  | String c t' => digits_value t' (acc * 10 + (Z.of_nat (nat_of_ascii c) - 48))
  end.


(** ** Enumeration name tables *)

(** The tables handed to [SGL_ENUM_INFO], entry for entry. *)
Definition AccessType_info : list (AccessType * string) :=
  [(none, "none"); (read, "read"); (write, "write"); (readwrite, "readwrite")].

Definition CallMode_info : list (CallMode * string) :=
  [(prim, "prim"); (bwds, "bwds"); (fwds, "fwds")].

(** ** Notions used to state properties of strides and renderings *)

(** The values [total] takes in the stride loop are the products
    [d[i] * ... * d[n-1]]: they all fit in an [int]. *)
Definition running_products_fit (ds : list Z) : Prop :=
  forall i, (i < length ds)%nat -> int_range (product (drop i ds)).

(** The element offset of a multi-index under given strides. *)
Fixpoint linear_offset (idx strides : list Z) : Z :=
  match idx, strides with
  | i :: idx', st :: strides' => i * st + linear_offset idx' strides'
  | _, _ => 0
  end.

(** A multi-index within the extent of a shape: one index per dimension,
    each in [0, d). *)
Definition in_extent (idx ds : list Z) : Prop :=
  Forall2 (fun i d => 0 <= i < d) idx ds.

(** Characters of a rendered [int]: a decimal digit, or a digit or the
    minus sign. *)
Definition is_digit (c : ascii) : bool :=
  (48 <=? nat_of_ascii c)%nat && (nat_of_ascii c <=? 57)%nat.

Definition is_numeral_char (c : ascii) : bool :=
  is_digit c || (nat_of_ascii c =? 45)%nat.

Fixpoint all_chars (p : ascii -> bool) (t : string) : bool :=
  match t with
  | EmptyString => true
  | String c t' => p c && all_chars p t'
  end.

(** A string that is empty or starts with a character no rendered [int]
    contains. *)
Definition starts_non_numeral (t : string) : bool :=
  match t with
  | EmptyString => true
  | String c _ => negb (is_numeral_char c)
  end.

(** What follows the first element in the rendering of a valid shape. *)
Fixpoint render_tail (ds : list Z) : string :=
  match ds with
  | [] => "]"
  | d :: ds' => ", " +:+ format_int d +:+ render_tail ds'
  end.

(** ** Examples *)

Example format_examples :
  format_int 0 = "0" /\ format_int 5 = "5" /\ format_int (-1) = "-1" /\
  format_int 2147483647 = "2147483647" /\ format_int (-2147483648) = "-2147483648"
  /\ format_int 100 = "100" /\ format_int 1024 = "1024".
Proof. repeat split; reflexivity. Qed.

Example to_string_examples :
  to_string (Shape_of_list [2; -1; 4]) = Ok "[2, -1, 4]" /\
  to_string (Shape_of_list []) = Ok "[]".
Proof. repeat split; reflexivity. Qed.

Example strides_examples :
  calc_contiguous_strides (Shape_of_list [2; 3; 4]) = Ok (Shape_of_list [12; 4; 1]) /\
  calc_contiguous_strides (Shape_of_list [5]) = Ok (Shape_of_list [1]) /\
  calc_contiguous_strides (Shape_of_list []) = Ok (Shape_of_list []) /\
  calc_contiguous_strides (Shape_of_list [3; -1; 2]) = Ok (Shape_of_list [-2; 2; 1]).
Proof. repeat split; vm_compute; reflexivity. Qed.

(** ** Basic facts about validity *)

Lemma Ok_inj {A : Type} (a b : A) : Ok a = Ok b -> a = b.
Proof. intros [= H]. exact H. Qed.

Lemma valid_true_inv (s : Shape) :
  valid s = true -> exists ds, s = Shape_of_list ds.
Proof.
  destruct s as [[ds|]]; simpl; intros H; [eauto | discriminate].
Qed.

Lemma valid_false_inv (s : Shape) : valid s = false -> s = Shape_default.
Proof.
  destruct s as [[ds|]]; simpl; intros H; [discriminate | reflexivity].
Qed.

Lemma as_vector_invalid (s : Shape) :
  valid s = false -> as_vector s = Fail shape_is_invalid.
Proof. intros H. rewrite (valid_false_inv s H). reflexivity. Qed.

Lemma as_vector_valid (ds : list Z) : as_vector (Shape_of_list ds) = Ok ds.
Proof. reflexivity. Qed.

Lemma vector_insert_range_end (v xs : list Z) :
  vector_insert_range v (length v) xs = v ++ xs.
Proof.
  unfold vector_insert_range.
  rewrite firstn_all, drop_all, app_nil_r. reflexivity.
Qed.

Lemma std_equal_same_length (a b : list Z) :
  length a = length b -> (std_equal a b = true <-> a = b).
Proof.
  revert b. induction a as [|x a IH]; intros [|y b] Hlen; simpl in *;
    try discriminate.
  - split; reflexivity.
  - injection Hlen as Hlen. rewrite andb_true_iff, Z.eqb_eq, (IH b Hlen).
    split.
    + intros [-> ->]. reflexivity.
    + intros [= -> ->]. split; reflexivity.
Qed.

Lemma vector_eqb_eq (a b : list Z) : vector_eqb a b = true <-> a = b.
Proof.
  unfold vector_eqb. rewrite andb_true_iff, Nat.eqb_eq. split.
  - intros [Hlen Heq]. apply (std_equal_same_length a b Hlen), Heq.
  - intros ->. split; [reflexivity|].
    apply std_equal_same_length; reflexivity.
Qed.

Lemma concrete_loop_spec (v : list Z) :
  concrete_loop v = true <-> (forall d, d ∈ v -> d <> -1).
Proof.
  induction v as [|x v IH]; simpl.
  - split; [|reflexivity]. intros _ d Hd. inversion Hd.
  - destruct (Z.eqb_spec x (-1)) as [->|Hx].
    + split; [discriminate|]. intros H. exfalso. apply (H (-1)); [left|reflexivity].
    + rewrite IH. split.
      * intros H d Hd. inversion Hd; subst; [exact Hx | apply H; assumption].
      * intros H d Hd. apply H. right. exact Hd.
Qed.

(** ** Theorems *)

(** C1. On every invalid Shape (the default-constructed one, or one built
    from an absent sequence) [size()], [element_count()], [concrete()],
    both forms of [operator[]] at any index, and [operator+] with any other
    Shape on either side raise the "Shape is invalid" error, whereas
    [operator==] returns a boolean for every pair of Shapes ([valid()] is
    a total function into [bool]). *)
Theorem invalid_shape_accessors_fail (w : N) (s : Shape) :
  valid s = false ->
  (valid Shape_default = false /\ valid (Shape_of_optional None) = false) /\
  size s = Fail shape_is_invalid /\
  element_count w s = Fail shape_is_invalid /\
  concrete s = Fail shape_is_invalid /\
  (forall i, index s i = Fail shape_is_invalid) /\
  (forall i d, index_store s i d = Fail shape_is_invalid) /\
  (forall other, operator_add s other = Fail shape_is_invalid) /\
  (forall other, operator_add other s = Fail shape_is_invalid) /\
  (forall a b : Shape, exists r, operator_eq a b = Ok r) /\
  (forall a : Shape, valid a = true \/ valid a = false).
Proof.
  intros H. pose proof (as_vector_invalid s H) as Hv.
  split; [split; reflexivity|].
  unfold size, element_count, concrete, index, index_store, operator_add.
  rewrite Hv. simpl.
  repeat split; try reflexivity.
  - intros [[o|]]; reflexivity.
  - intros [[a|]] [[b|]]; simpl; eauto.
  - intros a. destruct (valid a); [left | right]; reflexivity.
Qed.

Lemma invalid_shape_accessors_fail_witness :
  size Shape_default = Fail shape_is_invalid /\
  operator_add (Shape_of_list [1; 2]) Shape_default = Fail shape_is_invalid.
Proof.
  pose proof (invalid_shape_accessors_fail 64 Shape_default eq_refl)
    as (_ & Hsize & _ & _ & _ & _ & _ & Hadd & _).
  split; [exact Hsize | exact (Hadd (Shape_of_list [1; 2]))].
Defined.

(** C2. For valid Shapes [A] and [B], [A + B] is a valid Shape that holds
    the sequence of [A] followed by the sequence of [B], element for
    element, and its size is the sum of the two sizes. *)
Theorem operator_add_concatenates (A B : Shape) :
  valid A = true -> valid B = true ->
  exists a b C,
    as_vector A = Ok a /\ as_vector B = Ok b /\
    operator_add A B = Ok C /\
    valid C = true /\
    as_vector C = Ok (a ++ b) /\
    size A = Ok (length a) /\ size B = Ok (length b) /\
    size C = Ok (length a + length b)%nat /\
    (forall i, (i < length a)%nat -> index C i = index A i) /\
    (forall i, index C (length a + i) = index B i).
Proof.
  intros HA HB.
  destruct (valid_true_inv A HA) as [a ->].
  destruct (valid_true_inv B HB) as [b ->].
  exists a, b, (Shape_of_list (a ++ b)).
  unfold operator_add, size, index. simpl.
  rewrite vector_insert_range_end.
  repeat split; try reflexivity.
  - rewrite length_app. reflexivity.
  - intros i Hi. unfold vector_at. rewrite lookup_app_l by exact Hi. reflexivity.
  - intros i. unfold vector_at. rewrite lookup_app_r by lia.
    replace (length a + i - length a)%nat with i by lia. reflexivity.
Qed.

Lemma operator_add_concatenates_witness :
  exists a b C,
    as_vector (Shape_of_list [2; 3]) = Ok a /\ as_vector (Shape_of_list [4]) = Ok b /\
    operator_add (Shape_of_list [2; 3]) (Shape_of_list [4]) = Ok C /\
    valid C = true /\
    as_vector C = Ok (a ++ b) /\
    size (Shape_of_list [2; 3]) = Ok (length a) /\
    size (Shape_of_list [4]) = Ok (length b) /\
    size C = Ok (length a + length b)%nat /\
    (forall i, (i < length a)%nat -> index C i = index (Shape_of_list [2; 3]) i) /\
    (forall i, index C (length a + i) = index (Shape_of_list [4]) i).
Proof.
  apply (operator_add_concatenates (Shape_of_list [2; 3]) (Shape_of_list [4]));
    reflexivity.
Defined.

(** ** Arithmetic of [size_t] and [int] *)

Lemma pow2_pos (w : N) : 0 < 2 ^ Z.of_N w.
Proof. apply Z.pow_pos_nonneg; lia. Qed.

Lemma size_wrap_mul (w : N) (a b : Z) :
  size_wrap w (size_wrap w a * size_wrap w b) = size_wrap w (a * b).
Proof.
  unfold size_wrap. symmetry. apply Z.mul_mod.
  pose proof (pow2_pos w). lia.
Qed.

Lemma element_count_loop_spec (w : N) (v : list Z) :
  forall r, element_count_loop w v (size_wrap w r) = size_wrap w (r * product v).
Proof.
  induction v as [|d v IH]; intros r; simpl.
  - rewrite Z.mul_1_r. reflexivity.
  - unfold size_mul, size_of_int. rewrite size_wrap_mul, IH.
    f_equal. ring.
Qed.

Lemma element_count_mod (w : N) (ds : list Z) :
  element_count w (Shape_of_list ds) = Ok (product ds mod 2 ^ Z.of_N w).
Proof.
  unfold element_count, size_of_int. simpl.
  rewrite element_count_loop_spec, Z.mul_1_l. reflexivity.
Qed.

Lemma product_nonneg (ds : list Z) :
  Forall (fun d => 0 <= d) ds -> 0 <= product ds.
Proof.
  induction 1 as [|d ds Hd _ IH]; simpl; [lia | apply Z.mul_nonneg_nonneg; assumption].
Qed.

Lemma int_wrap_small (z : Z) : int_range z -> int_wrap z = z.
Proof.
  unfold int_range, INT_MIN, INT_MAX, int_wrap. intros H.
  rewrite Z.mod_small; lia.
Qed.

Lemma in_int_range_spec (z : Z) : in_int_range z = true <-> int_range z.
Proof.
  unfold in_int_range, int_range.
  rewrite andb_true_iff, !Z.leb_le. reflexivity.
Qed.

Lemma int_checked_ok (z : Z) : int_range z -> int_checked z = Ok z.
Proof.
  intros H. unfold int_checked.
  rewrite (proj2 (in_int_range_spec z) H). reflexivity.
Qed.

Lemma int_checked_overflow (z : Z) : ~ int_range z -> int_checked z = Fail Undefined.
Proof.
  intros H. unfold int_checked.
  destruct (in_int_range z) eqn:E; [|reflexivity].
  destruct (H (proj1 (in_int_range_spec z) E)).
Qed.

(** C10. [element_count()] is the product of the dimensions modulo 2^w:
    it is never negative, a [-1] dimension enters the product as
    [2^w - 1], and on a 64-bit target [Shape([-1]).element_count()] is
    [2^64 - 1]. *)
Theorem element_count_wraps (w : N) (ds : list Z) :
  element_count w (Shape_of_list ds) = Ok (product ds mod 2 ^ Z.of_N w) /\
  0 <= product ds mod 2 ^ Z.of_N w < 2 ^ Z.of_N w /\
  size_of_int w (-1) = 2 ^ Z.of_N w - 1 /\
  element_count w (Shape_of_list (-1 :: ds))
    = Ok (((2 ^ Z.of_N w - 1) * product ds) mod 2 ^ Z.of_N w) /\
  element_count 64 (Shape_of_list [-1]) = Ok (2 ^ 64 - 1).
Proof.
  pose proof (pow2_pos w) as Hpos.
  assert (Hm1 : (-1) mod 2 ^ Z.of_N w = 2 ^ Z.of_N w - 1).
  { symmetry. apply (Z.mod_unique _ _ (-1)); lia. }
  split; [|split; [|split; [|split]]].
  - apply element_count_mod.
  - apply Z.mod_pos_bound, Hpos.
  - exact Hm1.
  - rewrite element_count_mod. f_equal. simpl product.
    rewrite <- Hm1, Z.mul_mod_idemp_l by lia. reflexivity.
  - reflexivity.
Qed.

(** C3, as the specification states it, fails: three non-negative [int]
    dimensions whose product exceeds 2^64 do not yield their product on a
    64-bit target. *)
Lemma element_count_product_overflows :
  Forall int_range [2147483647; 2147483647; 2147483647] /\
  Forall (fun d => 0 <= d) [2147483647; 2147483647; 2147483647] /\
  valid (Shape_of_list [2147483647; 2147483647; 2147483647]) = true /\
  element_count 64 (Shape_of_list [2147483647; 2147483647; 2147483647])
    <> Ok (product [2147483647; 2147483647; 2147483647]).
Proof.
  split; [|split; [|split]].
  - repeat constructor; unfold INT_MIN, INT_MAX; lia.
  - repeat constructor; lia.
  - reflexivity.
  - vm_compute. discriminate.
Qed.

(** C3, amended. For a valid Shape whose dimensions are all non-negative
    and whose product is below 2^w, [element_count()] is the product of
    the dimensions; the empty sequence then yields 1. *)
Theorem element_count_product (w : N) (ds : list Z) :
  Forall (fun d => 0 <= d) ds ->
  product ds < 2 ^ Z.of_N w ->
  element_count w (Shape_of_list ds) = Ok (product ds) /\
  (ds = [] -> element_count w (Shape_of_list ds) = Ok 1).
Proof.
  intros Hnn Hlt.
  assert (He : element_count w (Shape_of_list ds) = Ok (product ds)).
  { rewrite element_count_mod, Z.mod_small; [reflexivity|].
    split; [apply product_nonneg, Hnn | exact Hlt]. }
  split; [exact He|]. intros ->. exact He.
Qed.

Lemma element_count_product_witness :
  element_count 64 (Shape_of_list [2; 3; 4]) = Ok 24 /\
  element_count 64 (Shape_of_list []) = Ok 1.
Proof.
  split.
  - apply (element_count_product 64 [2; 3; 4]).
    + repeat constructor; lia.
    + simpl; lia.
  - apply (element_count_product 64 []).
    + constructor.
    + simpl; lia.
    + reflexivity.
Defined.

(** ** The stride loop *)

Lemma strides_loop_step (ds strides : list Z) (i : nat) (d : Z) :
  ds !! i = Some d -> (i < length strides)%nat ->
  strides_loop ds (S i) strides (product (drop (S i) ds))
  = let* total' := int_checked (product (drop i ds)) in
    strides_loop ds i (<[i := product (drop (S i) ds)]> strides) total'.
Proof.
  intros Hd Hi. cbn [strides_loop]. unfold vector_store, vector_at, int_mul.
  destruct (lookup_lt_is_Some_2 strides i Hi) as [x Hx].
  rewrite Hx, Hd. cbn [bind].
  rewrite (drop_S ds d i Hd).
  replace (product (drop (S i) ds) * d) with (product (d :: drop (S i) ds))
    by (simpl; ring).
  reflexivity.
Qed.

(** Started at [i = n - 1] with the product of the dimensions to the
    right of [n - 1], and as long as the running products below [n] fit in
    an [int], the loop leaves in every slot below [n] the product of the
    dimensions to its right and leaves the other slots alone. *)
Lemma strides_loop_spec (ds : list Z) :
  forall (n : nat) (strides : list Z),
    (n <= length ds)%nat ->
    length strides = length ds ->
    (forall i, (i < n)%nat -> int_range (product (drop i ds))) ->
    exists r,
      strides_loop ds n strides (product (drop n ds)) = Ok r /\
      length r = length ds /\
      (forall j, (j < n)%nat -> r !! j = Some (product (drop (S j) ds))) /\
      (forall j, (n <= j)%nat -> r !! j = strides !! j).
Proof.
  induction n as [|i IH]; intros strides Hn Hlen Hfit.
  - exists strides. repeat split; [exact Hlen | intros j Hj; lia].
  - destruct (lookup_lt_is_Some_2 ds i ltac:(lia)) as [d Hd].
    rewrite (strides_loop_step ds strides i d Hd) by lia.
    rewrite int_checked_ok by (apply Hfit; lia). cbn [bind].
    destruct (IH (<[i := product (drop (S i) ds)]> strides))
      as (r & Hr & Hl & Hlow & Hhigh);
      [lia | rewrite length_insert; exact Hlen | intros k Hk; apply Hfit; lia |].
    exists r. split; [exact Hr|]. split; [exact Hl|]. split.
    + intros j Hj. destruct (decide (j = i)) as [->|Hne].
      * rewrite Hhigh by lia. apply list_lookup_insert_eq. lia.
      * apply Hlow. lia.
    + intros j Hj. rewrite Hhigh by lia. apply list_lookup_insert_ne. lia.
Qed.


(** The [int] counter of the loop starts at [n - 1] when the dimension
    count [n] fits in an [int]. *)
Lemma strides_iterations (n : nat) :
  Z.of_nat n <= INT_MAX ->
  int_sub (int_of_size (Z.of_nat n)) 1 = Ok (Z.of_nat n - 1).
Proof.
  intros Hn. unfold int_sub, int_of_size.
  rewrite (int_wrap_small (Z.of_nat n)), int_checked_ok;
    unfold int_range, INT_MIN, INT_MAX in *; try reflexivity; lia.
Qed.

(** Beyond that the cast [(int)shape.size()] is negative: with more than
    2^31 and at most 2^32 dimensions the loop body never runs and every
    stride stays at its initial 1. *)
Lemma calc_contiguous_strides_long (ds : list Z) :
  2 ^ 31 < Z.of_nat (length ds) <= 2 ^ 32 ->
  calc_contiguous_strides (Shape_of_list ds)
  = Ok (Shape_of_list (replicate (length ds) 1)).
Proof.
  intros Hn. unfold calc_contiguous_strides. simpl.
  set (n := Z.of_nat (length ds)) in *.
  assert (Hcast : int_of_size n = n - 2 ^ 32).
  { unfold int_of_size, int_wrap.
    replace (n + 2 ^ 31) with (n - 2 ^ 31 + 1 * 2 ^ 32) by ring.
    rewrite Z.mod_add, Z.mod_small by lia. ring. }
  rewrite Hcast. unfold int_sub.
  rewrite int_checked_ok by (unfold int_range, INT_MIN, INT_MAX; lia).
  cbn [bind]. rewrite Z2Nat.nonpos by lia. reflexivity.
Qed.

Lemma row_major_strides_lookup (ds : list Z) (i : nat) :
  (i < length ds)%nat ->
  row_major_strides ds !! i = Some (product (drop (S i) ds)).
Proof.
  intros Hi. unfold row_major_strides.
  rewrite list_lookup_fmap, lookup_seq_lt by exact Hi. reflexivity.
Qed.

Lemma calc_contiguous_strides_unfold (ds : list Z) :
  Z.of_nat (length ds) <= INT_MAX ->
  calc_contiguous_strides (Shape_of_list ds)
  = let* strides' := strides_loop ds (length ds) (replicate (length ds) 1)
                       (product (drop (length ds) ds)) in
    Ok (Shape_of_list strides').
Proof.
  intros Hn. unfold calc_contiguous_strides. simpl.
  rewrite strides_iterations by exact Hn. cbn [bind].
  replace (Z.to_nat (Z.of_nat (length ds) - 1 + 1)) with (length ds) by lia.
  rewrite drop_all. reflexivity.
Qed.

(** Without overflow the result is the row-major strides. *)
Lemma calc_contiguous_strides_exact (ds : list Z) :
  Z.of_nat (length ds) <= INT_MAX ->
  running_products_fit ds ->
  calc_contiguous_strides (Shape_of_list ds)
  = Ok (Shape_of_list (row_major_strides ds)).
Proof.
  intros Hn Hfit. rewrite calc_contiguous_strides_unfold by exact Hn.
  destruct (strides_loop_spec ds (length ds) (replicate (length ds) 1))
    as (r & Hr & Hl & Hlow & _); [lia | apply length_replicate | exact Hfit |].
  rewrite Hr. cbn [bind]. do 2 f_equal. apply list_eq. intros i.
  destruct (decide (i < length ds)%nat) as [Hi|Hi].
  - rewrite (Hlow i Hi), row_major_strides_lookup by exact Hi. reflexivity.
  - rewrite !lookup_ge_None_2; [reflexivity | |].
    + unfold row_major_strides. rewrite length_fmap, length_seq. lia.
    + rewrite Hl. lia.
Qed.


(** C4, as the specification states it, fails: the stride of the first
    dimension of [1, 65536, 65536] would be 2^32, which no [int] holds, so
    no Shape can carry the strides the claim asks for; the multiplication
    that would produce it overflows. *)
Lemma calc_contiguous_strides_overflows :
  Forall int_range [1; 65536; 65536] /\
  valid (Shape_of_list [1; 65536; 65536]) = true /\
  row_major_strides [1; 65536; 65536] = [4294967296; 65536; 1] /\
  ~ int_range 4294967296 /\
  calc_contiguous_strides (Shape_of_list [1; 65536; 65536]) = Fail Undefined /\
  calc_contiguous_strides (Shape_of_list [1; 65536; 65536])
    <> Ok (Shape_of_list (row_major_strides [1; 65536; 65536])).
Proof.
  split; [|split; [|split; [|split; [|split]]]].
  - repeat constructor; unfold INT_MIN, INT_MAX; lia.
  - reflexivity.
  - reflexivity.
  - unfold int_range, INT_MIN, INT_MAX. lia.
  - vm_compute. reflexivity.
  - vm_compute. discriminate.
Qed.

(** C4, amended. For a valid Shape [d0, ..., dn-1] of fewer than 2^31
    dimensions whose running products [d[i] * ... * d[n-1]], the total
    [d0 * ... * dn-1] included, all fit in an [int],
    [calc_contiguous_strides()] returns a valid Shape of the same
    dimension count whose stride [i] is the product of [d[i+1..n-1]], the
    last stride being 1. *)
Theorem calc_contiguous_strides_row_major (ds : list Z) :
  Z.of_nat (length ds) <= INT_MAX ->
  running_products_fit ds ->
  exists strides,
    calc_contiguous_strides (Shape_of_list ds) = Ok (Shape_of_list strides) /\
    valid (Shape_of_list strides) = true /\
    size (Shape_of_list strides) = size (Shape_of_list ds) /\
    (forall i, (i < length ds)%nat ->
       index (Shape_of_list strides) i = Ok (product (drop (S i) ds))) /\
    (ds <> [] -> last strides = Some 1) /\
    strides = row_major_strides ds.
Proof.
  intros Hn Hfit. exists (row_major_strides ds).
  assert (Hlen : length (row_major_strides ds) = length ds).
  { unfold row_major_strides. rewrite length_fmap, length_seq. reflexivity. }
  split; [apply calc_contiguous_strides_exact; assumption|].
  split; [reflexivity|]. split; [|split; [|split; [|reflexivity]]].
  - unfold size. simpl. rewrite Hlen. reflexivity.
  - intros i Hi. unfold index, vector_at. simpl.
    rewrite row_major_strides_lookup by exact Hi. reflexivity.
  - intros Hne. rewrite last_lookup, Hlen.
    destruct ds as [|d ds']; [congruence|]. simpl length. simpl pred.
    rewrite row_major_strides_lookup by (simpl; lia).
    replace (S (length ds')) with (length (d :: ds')) by reflexivity.
    rewrite drop_all. reflexivity.
Qed.

Lemma calc_contiguous_strides_row_major_witness :
  calc_contiguous_strides (Shape_of_list [2; 3; 4]) = Ok (Shape_of_list [12; 4; 1]).
Proof.
  destruct (calc_contiguous_strides_row_major [2; 3; 4])
    as (strides & Hcalc & _ & _ & _ & _ & Hrow).
  - unfold INT_MAX. simpl. lia.
  - intros i Hi. unfold int_range, INT_MIN, INT_MAX.
    destruct i as [|[|[|i]]]; simpl in *; lia.
  - rewrite Hcalc, Hrow. reflexivity.
Defined.





(** C6. [operator==] never fails; two invalid Shapes are equal, an invalid
    and a valid Shape (even a valid empty one) are not, and two valid
    Shapes are equal exactly when their sequences have the same length and
    the same element at every position. *)
Theorem operator_eq_spec (a b : list Z) :
  operator_eq Shape_default Shape_default = Ok true /\
  operator_eq Shape_default (Shape_of_list b) = Ok false /\
  operator_eq (Shape_of_list a) Shape_default = Ok false /\
  operator_eq Shape_default (Shape_of_list []) = Ok false /\
  (exists r, operator_eq (Shape_of_list a) (Shape_of_list b) = Ok r /\
     (r = true <->
      length a = length b /\ forall i, (i < length a)%nat -> a !! i = b !! i)) /\
  operator_eq (Shape_of_list [1; 2]) (Shape_of_list [1; 2]) = Ok true /\
  operator_eq (Shape_of_list [1; 2]) (Shape_of_list [2; 1]) = Ok false.
Proof.
  repeat (split; [reflexivity|]). split; [|split; reflexivity].
  exists (vector_eqb a b). split; [reflexivity|].
  rewrite vector_eqb_eq. split.
  - intros ->. split; reflexivity.
  - intros [Hlen Hi]. apply list_eq. intros i.
    destruct (decide (i < length a)%nat) as [Hlt|Hge].
    + apply Hi, Hlt.
    + rewrite !lookup_ge_None_2; [reflexivity | lia | lia].
Qed.

(** C8. On a valid Shape [concrete()] returns a boolean, which is true
    exactly when no dimension is [-1]; [2, -1, 4] is not concrete and
    [2, 3, 4] is. *)
Theorem concrete_spec (ds : list Z) :
  (exists b, concrete (Shape_of_list ds) = Ok b /\
     (b = true <-> forall d, d ∈ ds -> d <> -1)) /\
  concrete (Shape_of_list [2; -1; 4]) = Ok false /\
  concrete (Shape_of_list [2; 3; 4]) = Ok true.
Proof.
  split; [|split; reflexivity].
  exists (concrete_loop ds). split; [reflexivity | apply concrete_loop_spec].
Qed.

(** C9. A CallContext built from a device handle, a Shape and a call mode
    gives back the pointer held by the handle, the Shape and the mode;
    every member of a built context returns a value and leaves the context
    as it was. *)
Theorem CallContext_round_trip (Device : Type) (d : ref Device) (s : Shape)
    (m : CallMode) :
  device (CallContext_new d s m) = get d /\
  call_shape (CallContext_new d s m) = s /\
  call_mode (CallContext_new d s m) = m /\
  (forall (op : CallContext_member) (c : CallContext Device),
     (exists v, fst (call_member op c) = Ok v) /\ snd (call_member op c) = c).
Proof.
  split; [reflexivity|]. split; [destruct s; reflexivity|]. split; [reflexivity|].
  intros op c. destruct op; simpl; eauto.
Qed.

(** ** Rendering lemmas *)

Lemma append_assoc (a b c : string) : (a +:+ b) +:+ c = a +:+ b +:+ c.
Proof.
  induction a as [|x a IH]; [reflexivity|].
  change (String x ((a +:+ b) +:+ c) = String x (a +:+ b +:+ c)).
  f_equal. exact IH.
Qed.

Lemma digits_value_app (t u : string) :
  forall acc, digits_value (t +:+ u) acc = digits_value u (digits_value t acc).
Proof. induction t as [|c t IH]; intros acc; simpl; [reflexivity | apply IH]. Qed.

Lemma digit_char_value (d : Z) :
  0 <= d <= 9 -> Z.of_nat (nat_of_ascii (digit_char d)) - 48 = d.
Proof.
  intros Hd. unfold digit_char. rewrite nat_ascii_embedding; lia.
Qed.

Lemma decimal_digits_acc (fuel : nat) :
  forall n acc, decimal_digits fuel n acc = decimal_digits fuel n "" +:+ acc.
Proof.
  induction fuel as [|fuel IH]; intros n acc; simpl; [reflexivity|].
  destruct (n / 10 =? 0); [reflexivity|].
  rewrite (IH (n / 10) (String (digit_char (n mod 10)) acc)).
  rewrite (IH (n / 10) (String (digit_char (n mod 10)) "")).
  rewrite append_assoc. reflexivity.
Qed.

Lemma decimal_digits_value (fuel : nat) :
  forall n, 0 <= n < 2 ^ Z.of_nat fuel ->
    digits_value (decimal_digits fuel n "") 0 = n.
Proof.
  induction fuel as [|fuel IH]; intros n Hn.
  - simpl in *. lia.
  - simpl decimal_digits.
    pose proof (Z.mod_pos_bound n 10 ltac:(lia)) as Hmod.
    pose proof (Z.div_mod n 10 ltac:(lia)) as Hdiv.
    destruct (Z.eqb_spec (n / 10) 0) as [Hz|Hnz].
    + simpl. rewrite digit_char_value by lia. lia.
    + rewrite decimal_digits_acc, digits_value_app, IH.
      * simpl. rewrite digit_char_value by lia. lia.
      * rewrite Nat2Z.inj_succ, Z.pow_succ_r in Hn by lia.
        split; [apply Z.div_pos; lia|].
        apply Z.div_lt_upper_bound; lia.
Qed.

(** A non-negative [int] is rendered as the decimal numeral of its value,
    a negative one as a minus sign before the numeral of its opposite. *)
Lemma format_int_decimal (d : Z) :
  (0 <= d -> digits_value (format_int d) 0 = d) /\
  (d < 0 -> format_int d = String "-" (format_int (- d))).
Proof.
  unfold format_int. split; intros Hd.
  - destruct (Z.ltb_spec d 0) as [|_]; [lia|].
    apply decimal_digits_value. split; [exact Hd|].
    rewrite Nat2Z.inj_succ, Z2Nat.id by apply Z.log2_nonneg.
    destruct (Z.eq_dec d 0) as [->|Hne]; [simpl; lia|].
    apply Z.log2_spec. lia.
  - destruct (Z.ltb_spec d 0) as [_|]; [|lia].
    destruct (Z.ltb_spec (- d) 0) as [|_]; [lia|]. reflexivity.
Qed.

Lemma join_rest_spec (sep : string) (rest : list Z) :
  forall pre x,
    join_rest rest sep (pre +:+ x)
    = pre +:+ String.concat sep (x :: map format_int rest).
Proof.
  induction rest as [|d rest IH]; intros pre x.
  - reflexivity.
  - cbn [join_rest map].
    replace ((pre +:+ x) +:+ sep +:+ format_int d)
      with ((pre +:+ x +:+ sep) +:+ format_int d)
      by (rewrite !append_assoc; reflexivity).
    rewrite IH.
    change (String.concat sep (x :: format_int d :: map format_int rest))
      with (x +:+ sep +:+ String.concat sep (format_int d :: map format_int rest)).
    rewrite !append_assoc. reflexivity.
Qed.

Lemma fmt_join_spec (sep : string) (v : list Z) :
  fmt_join v sep = String.concat sep (map format_int v).
Proof.
  destruct v as [|d rest]; [reflexivity|].
  apply (join_rest_spec sep rest "" (format_int d)).
Qed.

(** C7. [to_string()] returns on every Shape: the literal "[invalid]" on
    an invalid one, and on a valid one the decimal renderings of its
    dimensions, in order, separated by a comma and a space, between
    brackets; [Shape([5])] renders as "[5]". *)
Theorem to_string_spec (ds : list Z) :
  to_string Shape_default = Ok "[invalid]" /\
  to_string (Shape_of_list ds) = Ok (bracketed_list ds) /\
  (forall s : Shape, exists t, to_string s = Ok t) /\
  to_string (Shape_of_list [5]) = Ok "[5]" /\
  to_string (Shape_of_list [2; 3; 4]) = Ok "[2, 3, 4]".
Proof.
  split; [reflexivity|]. split; [|split; [|split; reflexivity]].
  - unfold to_string, bracketed_list, fmt_format_brackets. simpl.
    rewrite fmt_join_spec. reflexivity.
  - intros [[v|]]; simpl; eauto.
Qed.

(** ** Composition of the Shape operations *)

Lemma operator_add_valid (a b : list Z) :
  operator_add (Shape_of_list a) (Shape_of_list b) = Ok (Shape_of_list (a ++ b)).
Proof.
  unfold operator_add. simpl. rewrite vector_insert_range_end. reflexivity.
Qed.

Lemma operator_add_invalid_l (B : Shape) :
  operator_add Shape_default B = Fail shape_is_invalid.
Proof. reflexivity. Qed.

Lemma operator_add_invalid_r (A : Shape) :
  operator_add A Shape_default = Fail shape_is_invalid.
Proof. destruct A as [[a|]]; reflexivity. Qed.

Ltac shape_cases :=
  repeat match goal with
  | s : Shape |- _ => destruct s as [[?|]]
  end;
  fold Shape_default in *;
  repeat match goal with
  | |- context [mkShape (Some ?v)] => change (mkShape (Some v)) with (Shape_of_list v)
  end;
  rewrite ?operator_add_valid, ?operator_add_invalid_l, ?operator_add_invalid_r;
  cbn [bind].

(** X1. [operator+] is associative on all Shapes, failures included, and
    the valid empty Shape is its neutral element on both sides. *)
Theorem operator_add_assoc (A B C : Shape) :
  (let* AB := operator_add A B in operator_add AB C)
  = (let* BC := operator_add B C in operator_add A BC) /\
  operator_add A (Shape_of_list [])
  = (if valid A then Ok A else Fail shape_is_invalid) /\
  operator_add (Shape_of_list []) A
  = (if valid A then Ok A else Fail shape_is_invalid).
Proof.
  split; [|split].
  - shape_cases;
      rewrite ?operator_add_valid, ?operator_add_invalid_l, ?operator_add_invalid_r;
      try reflexivity.
    rewrite app_assoc. reflexivity.
  - clear B C. shape_cases; rewrite ?app_nil_r; reflexivity.
  - clear B C. shape_cases; reflexivity.
Qed.

(** X2. The element count of a concatenation is the [size_t] product of
    the two element counts, so it does not depend on the order of the
    operands; when either operand is invalid both sides raise. *)
Theorem element_count_add (w : N) (A B : Shape) :
  (let* C := operator_add A B in element_count w C)
  = (let* na := element_count w A in
     let* nb := element_count w B in Ok (size_mul w na nb)) /\
  (let* C := operator_add A B in element_count w C)
  = (let* C := operator_add B A in element_count w C).
Proof.
  assert (Hprod : forall a b : list Z, product (a ++ b) = product a * product b).
  { intros a b. induction a as [|x a IH]; simpl; [lia | rewrite IH; ring]. }
  split.
  - shape_cases; rewrite ?element_count_mod; cbn [bind]; try reflexivity.
    f_equal. unfold size_mul, size_wrap. rewrite Hprod.
    apply Z.mul_mod. pose proof (pow2_pos w). lia.
  - shape_cases; rewrite ?element_count_mod; try reflexivity.
    rewrite !Hprod, Z.mul_comm. reflexivity.
Qed.

(** X3. A concatenation is concrete exactly when both operands are. *)
Theorem concrete_add (A B : Shape) :
  (let* C := operator_add A B in concrete C)
  = (let* ca := concrete A in let* cb := concrete B in Ok (ca && cb)).
Proof.
  destruct A as [[a|]], B as [[b|]]; try reflexivity.
  change (mkShape (Some a)) with (Shape_of_list a).
  change (mkShape (Some b)) with (Shape_of_list b).
  rewrite operator_add_valid. unfold concrete. simpl. f_equal.
  induction a as [|x a IH]; simpl; [reflexivity|].
  destruct (x =? -1); [reflexivity | exact IH].
Qed.

(** X4. A store through [operator[]] at an index within the shape is read
    back by [operator[]] at that index, leaves every other dimension and
    the dimension count as they were, and keeps the shape valid. *)
Theorem index_store_round_trip (ds : list Z) (i : nat) (d : Z) :
  (i < length ds)%nat ->
  exists s',
    index_store (Shape_of_list ds) i d = Ok s' /\
    valid s' = true /\
    index s' i = Ok d /\
    (forall j, j <> i -> index s' j = index (Shape_of_list ds) j) /\
    size s' = size (Shape_of_list ds).
Proof.
  intros Hi.
  destruct (lookup_lt_is_Some_2 ds i Hi) as [d0 Hd0].
  exists (Shape_of_list (<[i := d]> ds)).
  unfold index_store, index, size, vector_at. simpl. rewrite Hd0. simpl.
  split; [reflexivity|]. split; [reflexivity|]. split; [|split].
  - rewrite list_lookup_insert_eq by exact Hi. reflexivity.
  - intros j Hj. rewrite list_lookup_insert_ne by congruence. reflexivity.
  - rewrite length_insert. reflexivity.
Qed.

Lemma index_store_round_trip_witness :
  exists s',
    index_store (Shape_of_list [2; 3; 4]) 1 7 = Ok s' /\
    valid s' = true /\
    index s' 1 = Ok 7 /\
    (forall j, j <> 1%nat -> index s' j = index (Shape_of_list [2; 3; 4]) j) /\
    size s' = size (Shape_of_list [2; 3; 4]).
Proof.
  apply (index_store_round_trip [2; 3; 4] 1 7). simpl. lia.
Defined.

(** X5. [operator==] decides equality of Shapes: it answers true exactly
    on equal Shapes and false on all others, it is symmetric, and a copy
    or an assignment yields a Shape equal to its source. *)
Theorem operator_eq_leibniz (s o : Shape) :
  (operator_eq s o = Ok true <-> s = o) /\
  (operator_eq s o = Ok false <-> s <> o) /\
  operator_eq s o = operator_eq o s /\
  operator_eq (Shape_copy s) s = Ok true /\
  operator_eq (operator_assign s o) o = Ok true.
Proof.
  assert (Hrefl : forall t, operator_eq t t = Ok true).
  { intros [[v|]]; [|reflexivity]. unfold operator_eq. simpl.
    f_equal. apply vector_eqb_eq. reflexivity. }
  assert (Htrue : forall t u, operator_eq t u = Ok true <-> t = u).
  { intros [[a|]] [[b|]]; unfold operator_eq; simpl;
      try (split; [discriminate | congruence]); [|split; reflexivity].
    split.
    - intros [= H]. apply vector_eqb_eq in H. congruence.
    - intros [= ->]. f_equal. apply vector_eqb_eq. reflexivity. }
  assert (Hbool : forall t u, exists r, operator_eq t u = Ok r).
  { intros [[a|]] [[b|]]; unfold operator_eq; simpl; eauto. }
  split; [apply Htrue|]. split; [|split; [|split]].
  - destruct (Hbool s o) as [[|] Hr]; rewrite Hr.
    + split; [discriminate|]. intros Hne. exfalso. apply Hne, Htrue, Hr.
    + split; [|reflexivity]. intros _ Heq. apply Htrue in Heq. congruence.
  - destruct (Hbool s o) as [r Hr], (Hbool o s) as [r' Hr'].
    rewrite Hr, Hr'. f_equal. destruct r, r'; try reflexivity.
    + apply Htrue in Hr. symmetry in Hr. apply Htrue in Hr. congruence.
    + apply Htrue in Hr'. symmetry in Hr'. apply Htrue in Hr'. congruence.
  - destruct s; apply Hrefl.
  - destruct o; apply Hrefl.
Qed.

(** ** When the strides are defined *)

Lemma product_app (a b : list Z) : product (a ++ b) = product a * product b.
Proof. induction a as [|x a IH]; simpl; [lia | rewrite IH; ring]. Qed.

Lemma row_major_strides_cons (d : Z) (ds : list Z) :
  row_major_strides (d :: ds) = product ds :: row_major_strides ds.
Proof.
  unfold row_major_strides. simpl length.
  change (seq 0 (S (length ds))) with (0%nat :: seq 1 (length ds)).
  rewrite fmap_cons. f_equal.
  rewrite <- fmap_S_seq, <- list_fmap_compose. reflexivity.
Qed.

Lemma row_major_strides_app (a b : list Z) :
  row_major_strides (a ++ b)
  = ((fun s => s * product b) <$> row_major_strides a) ++ row_major_strides b.
Proof.
  induction a as [|x a IH]; [reflexivity|].
  change ((x :: a) ++ b) with (x :: (a ++ b)).
  rewrite !row_major_strides_cons, IH, fmap_cons, product_app. reflexivity.
Qed.




(** X7. For shapes [A] and [B] whose dimension counts together fit in an
    [int] and whose running products, those of [A] and those of [A + B],
    fit in an [int], the strides of [A + B] are the strides of [A], each
    multiplied by the product of the dimensions of [B], followed by the
    strides of [B]. *)
Theorem calc_contiguous_strides_add (a b : list Z) :
  Z.of_nat (length a + length b) <= INT_MAX ->
  running_products_fit a ->
  running_products_fit (a ++ b) ->
  exists sa sb,
    calc_contiguous_strides (Shape_of_list a) = Ok (Shape_of_list sa) /\
    calc_contiguous_strides (Shape_of_list b) = Ok (Shape_of_list sb) /\
    (let* C := operator_add (Shape_of_list a) (Shape_of_list b) in
     calc_contiguous_strides C)
    = Ok (Shape_of_list (((fun s => s * product b) <$> sa) ++ sb)).
Proof.
  intros Hn Ha Hab. exists (row_major_strides a), (row_major_strides b).
  assert (Hb : running_products_fit b).
  { intros i Hi. rewrite <- (drop_app_add a b i).
    apply Hab. rewrite length_app. lia. }
  rewrite operator_add_valid. cbn [bind].
  rewrite !calc_contiguous_strides_exact
    by (rewrite ?length_app; first [assumption | lia]).
  rewrite row_major_strides_app. repeat split; reflexivity.
Qed.

Lemma calc_contiguous_strides_add_witness :
  (let* C := operator_add (Shape_of_list [2; 3]) (Shape_of_list [4; 5]) in
   calc_contiguous_strides C)
  = Ok (Shape_of_list [60; 20; 5; 1]).
Proof.
  destruct (calc_contiguous_strides_add [2; 3] [4; 5])
    as (sa & sb & Ha & Hb & Hab).
  - unfold INT_MAX. simpl. lia.
  - intros i Hi. unfold int_range, INT_MIN, INT_MAX.
    destruct i as [|[|i]]; simpl in *; lia.
  - intros i Hi. unfold int_range, INT_MIN, INT_MAX.
    destruct i as [|[|[|[|i]]]]; simpl in *; lia.
  - rewrite Hab. apply Ok_inj in Ha. apply Ok_inj in Hb.
    injection Ha as <-. injection Hb as <-. reflexivity.
Defined.

(** ** Contiguity *)

Lemma linear_offset_bound (ds : list Z) :
  forall idx, in_extent idx ds ->
    0 <= linear_offset idx (row_major_strides ds) < product ds.
Proof.
  induction ds as [|d ds IH]; intros idx Hin; inversion Hin as [|i ? idx' ? Hi Hrest]; subst.
  - simpl. lia.
  - rewrite row_major_strides_cons. simpl.
    specialize (IH idx' Hrest). nia.
Qed.

Lemma linear_offset_inj (ds : list Z) :
  forall idx1 idx2, in_extent idx1 ds -> in_extent idx2 ds ->
    linear_offset idx1 (row_major_strides ds)
    = linear_offset idx2 (row_major_strides ds) ->
    idx1 = idx2.
Proof.
  induction ds as [|d ds IH]; intros idx1 idx2 H1 H2 Heq;
    inversion H1 as [|i1 ? r1 ? Hi1 Hr1]; subst;
    inversion H2 as [|i2 ? r2 ? Hi2 Hr2]; subst.
  - reflexivity.
  - rewrite row_major_strides_cons in Heq. simpl in Heq.
    pose proof (linear_offset_bound ds r1 Hr1) as Hb1.
    pose proof (linear_offset_bound ds r2 Hr2) as Hb2.
    assert (Hi : i1 = i2) by nia. subst i2.
    f_equal. apply IH; [assumption | assumption | lia].
Qed.

Lemma linear_offset_last (ds : list Z) :
  linear_offset ((fun d => d - 1) <$> ds) (row_major_strides ds) = product ds - 1.
Proof.
  induction ds as [|d ds IH]; [reflexivity|].
  rewrite row_major_strides_cons, fmap_cons. simpl. rewrite IH. ring.
Qed.

Lemma product_drop_bounds (ds : list Z) :
  Forall (fun d => 0 < d) ds ->
  forall k, 1 <= product (drop k ds) <= product ds.
Proof.
  induction 1 as [|d ds Hd _ IH]; intros k.
  - rewrite drop_nil. simpl. lia.
  - destruct k as [|k]; simpl.
    + specialize (IH 0%nat). rewrite drop_0 in IH. nia.
    + specialize (IH k). nia.
Qed.

(** X8. For a shape of positive dimensions whose dimension count and
    element count fit in an [int], the strides address a contiguous
    buffer: every multi-index within the extents has an offset in
    [0, element_count), two different multi-indices have different
    offsets, and the last element lies at offset [element_count - 1]. *)
Theorem contiguous_strides_address_buffer (w : N) (ds : list Z) :
  Forall (fun d => 0 < d) ds ->
  Z.of_nat (length ds) <= INT_MAX ->
  product ds <= INT_MAX ->
  product ds < 2 ^ Z.of_N w ->
  exists strides n,
    calc_contiguous_strides (Shape_of_list ds) = Ok (Shape_of_list strides) /\
    element_count w (Shape_of_list ds) = Ok n /\
    (forall idx, in_extent idx ds -> 0 <= linear_offset idx strides < n) /\
    (forall idx1 idx2, in_extent idx1 ds -> in_extent idx2 ds ->
       linear_offset idx1 strides = linear_offset idx2 strides -> idx1 = idx2) /\
    linear_offset ((fun d => d - 1) <$> ds) strides = n - 1.
Proof.
  intros Hpos Hn Hmax Hw.
  exists (row_major_strides ds), (product ds).
  pose proof (product_drop_bounds ds Hpos) as Hb.
  split; [|split; [|split; [|split]]].
  - apply calc_contiguous_strides_exact; [exact Hn|].
    intros i _. specialize (Hb i).
    unfold int_range, INT_MIN, INT_MAX in *. lia.
  - rewrite element_count_mod, Z.mod_small; [reflexivity|].
    specialize (Hb 0%nat). rewrite drop_0 in Hb. lia.
  - apply linear_offset_bound.
  - apply linear_offset_inj.
  - apply linear_offset_last.
Qed.

Lemma contiguous_strides_address_buffer_witness :
  exists strides n,
    calc_contiguous_strides (Shape_of_list [2; 3; 4]) = Ok (Shape_of_list strides) /\
    element_count 64 (Shape_of_list [2; 3; 4]) = Ok n /\
    (forall idx, in_extent idx [2; 3; 4] -> 0 <= linear_offset idx strides < n) /\
    (forall idx1 idx2, in_extent idx1 [2; 3; 4] -> in_extent idx2 [2; 3; 4] ->
       linear_offset idx1 strides = linear_offset idx2 strides -> idx1 = idx2) /\
    linear_offset ((fun d => d - 1) <$> [2; 3; 4]) strides = n - 1.
Proof.
  apply (contiguous_strides_address_buffer 64 [2; 3; 4]).
  - repeat constructor.
  - unfold INT_MAX. simpl. lia.
  - unfold INT_MAX. simpl. lia.
  - simpl. lia.
Defined.

(** X9. A zero dimension makes the element count zero; for non-negative
    dimensions whose product is below 2^w the element count is zero only
    if some dimension is zero. *)
Theorem element_count_zero (w : N) (ds : list Z) :
  (0 ∈ ds -> element_count w (Shape_of_list ds) = Ok 0) /\
  (Forall (fun d => 0 <= d) ds -> product ds < 2 ^ Z.of_N w ->
   element_count w (Shape_of_list ds) = Ok 0 -> 0 ∈ ds).
Proof.
  assert (Hzero : forall l : list Z, product l = 0 <-> 0 ∈ l).
  { induction l as [|x l IH]; simpl.
    - split; [lia | intros H; inversion H].
    - rewrite Z.mul_eq_0, IH. split.
      + intros [->|H]; [left | right; exact H].
      + intros H. inversion H; subst; [left; reflexivity | right; assumption]. }
  split.
  - intros H0. rewrite element_count_mod. apply Hzero in H0. rewrite H0.
    rewrite Z.mod_0_l; [reflexivity|]. pose proof (pow2_pos w). lia.
  - intros Hnn Hlt He. rewrite element_count_mod in He.
    rewrite Z.mod_small in He by (split; [apply product_nonneg, Hnn | exact Hlt]).
    injection He as He. apply Hzero, He.
Qed.

Lemma element_count_zero_witness :
  element_count 64 (Shape_of_list [2; 0; 4]) = Ok 0 /\
  (element_count 64 (Shape_of_list [0]) = Ok 0 -> 0 ∈ [0]).
Proof.
  split.
  - apply (element_count_zero 64 [2; 0; 4]). right. left.
  - apply (element_count_zero 64 [0]).
    + repeat constructor. lia.
    + simpl. lia.
Defined.

(** ** Renderings tell Shapes apart *)

Lemma to_string_valid (ds : list Z) :
  to_string (Shape_of_list ds) = Ok (bracketed_list ds).
Proof.
  unfold to_string, bracketed_list, fmt_format_brackets. simpl.
  rewrite fmt_join_spec. reflexivity.
Qed.

Lemma is_digit_digit_char (k : Z) : 0 <= k <= 9 -> is_digit (digit_char k) = true.
Proof.
  intros Hk. unfold is_digit, digit_char.
  rewrite nat_ascii_embedding by lia.
  apply andb_true_iff. split; apply Nat.leb_le; lia.
Qed.

Lemma decimal_digits_all_digits (fuel : nat) :
  forall n acc, 0 <= n -> all_chars is_digit acc = true ->
    all_chars is_digit (decimal_digits fuel n acc) = true.
Proof.
  induction fuel as [|fuel IH]; intros n acc Hn Hacc; cbn [decimal_digits];
    [exact Hacc|].
  pose proof (Z.mod_pos_bound n 10 ltac:(lia)) as Hmod.
  assert (Hacc' : all_chars is_digit (String (digit_char (n mod 10)) acc) = true).
  { cbn [all_chars]. rewrite is_digit_digit_char by lia. exact Hacc. }
  destruct (n / 10 =? 0); [exact Hacc'|].
  apply IH; [apply Z.div_pos; lia | exact Hacc'].
Qed.

Lemma decimal_digits_nonempty (fuel : nat) :
  forall n acc, (acc <> "" \/ fuel <> O) -> decimal_digits fuel n acc <> "".
Proof.
  induction fuel as [|fuel IH]; intros n acc H; cbn [decimal_digits].
  - destruct H as [H|H]; [exact H | congruence].
  - destruct (n / 10 =? 0); [discriminate|]. apply IH. left. discriminate.
Qed.

Lemma format_int_nonneg_digits (d : Z) :
  0 <= d -> all_chars is_digit (format_int d) = true.
Proof.
  intros Hd. unfold format_int.
  destruct (Z.ltb_spec d 0) as [|_]; [lia|].
  apply decimal_digits_all_digits; [exact Hd | reflexivity].
Qed.

Lemma all_digits_numeral (t : string) :
  all_chars is_digit t = true -> all_chars is_numeral_char t = true.
Proof.
  induction t as [|c t IH]; cbn [all_chars]; [reflexivity|].
  intros H. apply andb_true_iff in H as [Hc Ht].
  apply andb_true_iff. split; [|apply IH, Ht].
  unfold is_numeral_char. rewrite Hc. reflexivity.
Qed.

Lemma format_int_numeral (d : Z) :
  all_chars is_numeral_char (format_int d) = true /\ format_int d <> "".
Proof.
  destruct (Z.lt_ge_cases d 0) as [Hneg|Hpos].
  - rewrite (proj2 (format_int_decimal d) Hneg). split; [|discriminate].
    change (all_chars is_numeral_char (String "-" (format_int (- d))))
      with (all_chars is_numeral_char (format_int (- d))).
    apply all_digits_numeral, format_int_nonneg_digits. lia.
  - split; [apply all_digits_numeral, format_int_nonneg_digits, Hpos|].
    unfold format_int. destruct (Z.ltb_spec d 0) as [|_]; [lia|].
    apply decimal_digits_nonempty. right. discriminate.
Qed.

Lemma format_int_inj (d1 d2 : Z) : format_int d1 = format_int d2 -> d1 = d2.
Proof.
  intros Heq.
  destruct (Z.lt_ge_cases d1 0) as [H1|H1], (Z.lt_ge_cases d2 0) as [H2|H2].
  - rewrite (proj2 (format_int_decimal d1) H1),
      (proj2 (format_int_decimal d2) H2) in Heq.
    injection Heq as Heq.
    pose proof (proj1 (format_int_decimal (- d1)) ltac:(lia)) as E1.
    pose proof (proj1 (format_int_decimal (- d2)) ltac:(lia)) as E2.
    rewrite Heq in E1. lia.
  - pose proof (format_int_nonneg_digits d2 H2) as Hd.
    rewrite <- Heq, (proj2 (format_int_decimal d1) H1) in Hd. discriminate Hd.
  - pose proof (format_int_nonneg_digits d1 H1) as Hd.
    rewrite Heq, (proj2 (format_int_decimal d2) H2) in Hd. discriminate Hd.
  - pose proof (proj1 (format_int_decimal d1) H1) as E1.
    pose proof (proj1 (format_int_decimal d2) H2) as E2.
    rewrite Heq in E1. lia.
Qed.

Lemma numeral_prefix_unique (x : string) :
  forall y r1 r2,
    all_chars is_numeral_char x = true ->
    all_chars is_numeral_char y = true ->
    starts_non_numeral r1 = true -> starts_non_numeral r2 = true ->
    x +:+ r1 = y +:+ r2 -> x = y /\ r1 = r2.
Proof.
  induction x as [|c x IH]; intros [|c' y] r1 r2 Hx Hy H1 H2 Heq.
  - split; [reflexivity | exact Heq].
  - change (r1 = String c' (y +:+ r2)) in Heq. subst r1.
    cbn [starts_non_numeral all_chars] in H1, Hy.
    apply andb_true_iff in Hy as [Hc _].
    rewrite Hc in H1. discriminate.
  - change (String c (x +:+ r1) = r2) in Heq. subst r2.
    cbn [starts_non_numeral all_chars] in H2, Hx.
    apply andb_true_iff in Hx as [Hc _].
    rewrite Hc in H2. discriminate.
  - change (String c (x +:+ r1) = String c' (y +:+ r2)) in Heq.
    injection Heq as -> Heq.
    cbn [all_chars] in Hx, Hy.
    apply andb_true_iff in Hx as [_ Hx]. apply andb_true_iff in Hy as [_ Hy].
    destruct (IH y r1 r2 Hx Hy H1 H2 Heq) as [-> ->]. split; reflexivity.
Qed.

Lemma render_tail_starts (ds : list Z) : starts_non_numeral (render_tail ds) = true.
Proof. destruct ds; reflexivity. Qed.

Lemma render_tail_inj (l1 : list Z) :
  forall l2, render_tail l1 = render_tail l2 -> l1 = l2.
Proof.
  induction l1 as [|d1 l1 IH]; intros [|d2 l2] Heq.
  - reflexivity.
  - discriminate Heq.
  - discriminate Heq.
  - change (String "," (String " " (format_int d1 +:+ render_tail l1))
            = String "," (String " " (format_int d2 +:+ render_tail l2))) in Heq.
    injection Heq as Heq.
    destruct (numeral_prefix_unique _ _ _ _
                (proj1 (format_int_numeral d1)) (proj1 (format_int_numeral d2))
                (render_tail_starts l1) (render_tail_starts l2) Heq) as [Hd Ht].
    rewrite (format_int_inj _ _ Hd), (IH l2 Ht). reflexivity.
Qed.

Lemma bracketed_list_cons (d : Z) (ds : list Z) :
  bracketed_list (d :: ds) = String "[" (format_int d +:+ render_tail ds).
Proof.
  unfold bracketed_list.
  change ("[" +:+ String.concat ", " (map format_int (d :: ds)) +:+ "]")
    with (String "[" (String.concat ", " (map format_int (d :: ds)) +:+ "]")).
  f_equal. revert d. induction ds as [|d' ds IH]; intros d.
  - reflexivity.
  - change (String.concat ", " (map format_int (d :: d' :: ds)))
      with (format_int d +:+ ", " +:+ String.concat ", " (map format_int (d' :: ds))).
    rewrite !append_assoc, IH.
    change (render_tail (d' :: ds))
      with (", " +:+ format_int d' +:+ render_tail ds).
    reflexivity.
Qed.

Lemma bracketed_list_inj (l1 l2 : list Z) :
  bracketed_list l1 = bracketed_list l2 -> l1 = l2.
Proof.
  destruct l1 as [|d1 l1], l2 as [|d2 l2]; rewrite ?bracketed_list_cons; intros Heq.
  - reflexivity.
  - exfalso. change (bracketed_list []) with (String "[" ("" +:+ "]")) in Heq.
    injection Heq as Heq.
    destruct (numeral_prefix_unique "" (format_int d2) "]" (render_tail l2)
                eq_refl (proj1 (format_int_numeral d2)) eq_refl
                (render_tail_starts l2) Heq) as [He _].
    apply (proj2 (format_int_numeral d2)). symmetry. exact He.
  - exfalso. change (bracketed_list []) with (String "[" ("" +:+ "]")) in Heq.
    injection Heq as Heq.
    destruct (numeral_prefix_unique (format_int d1) "" (render_tail l1) "]"
                (proj1 (format_int_numeral d1)) eq_refl
                (render_tail_starts l1) eq_refl Heq) as [He _].
    apply (proj2 (format_int_numeral d1)). exact He.
  - injection Heq as Heq.
    destruct (numeral_prefix_unique _ _ _ _
                (proj1 (format_int_numeral d1)) (proj1 (format_int_numeral d2))
                (render_tail_starts l1) (render_tail_starts l2) Heq) as [Hd Ht].
    rewrite (format_int_inj _ _ Hd), (render_tail_inj _ _ Ht). reflexivity.
Qed.

Lemma bracketed_list_not_invalid (ds : list Z) : bracketed_list ds <> "[invalid]".
Proof.
  destruct ds as [|d ds]; [discriminate|].
  rewrite bracketed_list_cons. intros Heq. injection Heq as Heq.
  destruct (numeral_prefix_unique (format_int d) "" (render_tail ds) "invalid]"
              (proj1 (format_int_numeral d)) eq_refl
              (render_tail_starts ds) eq_refl Heq) as [He _].
  apply (proj2 (format_int_numeral d)). exact He.
Qed.

(** X10. [to_string()] tells Shapes apart: two Shapes have the same
    rendering exactly when they are equal, and only the invalid Shape
    renders as "[invalid]". *)
Theorem to_string_injective (s o : Shape) :
  (to_string s = to_string o <-> s = o) /\
  (to_string s = Ok "[invalid]" <-> valid s = false).
Proof.
  split.
  - split; [|intros ->; reflexivity].
    destruct s as [[a|]], o as [[b|]];
      repeat match goal with
      | |- context [mkShape (Some ?v)] =>
          change (mkShape (Some v)) with (Shape_of_list v)
      end;
      rewrite ?to_string_valid; intros Heq.
    + apply Ok_inj in Heq. rewrite (bracketed_list_inj a b Heq). reflexivity.
    + apply Ok_inj in Heq. destruct (bracketed_list_not_invalid a Heq).
    + apply Ok_inj in Heq. symmetry in Heq.
      destruct (bracketed_list_not_invalid b Heq).
    + reflexivity.
  - destruct s as [[a|]]; [|split; reflexivity].
    change (mkShape (Some a)) with (Shape_of_list a). rewrite to_string_valid.
    split; [|discriminate].
    intros Heq. apply Ok_inj in Heq. destruct (bracketed_list_not_invalid a Heq).
Qed.

(** ** Enumeration name tables *)

(** X11. The name tables of [AccessType] and [CallMode] give every value
    exactly one name and no name to two values, and the numeric values
    given to the call modes are pairwise distinct. *)
Theorem enum_info_one_to_one :
  (forall v : AccessType, exists name,
      (v, name) ∈ AccessType_info /\
      forall name', (v, name') ∈ AccessType_info -> name' = name) /\
  (forall (v1 v2 : AccessType) name,
      (v1, name) ∈ AccessType_info -> (v2, name) ∈ AccessType_info -> v1 = v2) /\
  (forall m : CallMode, exists name,
      (m, name) ∈ CallMode_info /\
      forall name', (m, name') ∈ CallMode_info -> name' = name) /\
  (forall (m1 m2 : CallMode) name,
      (m1, name) ∈ CallMode_info -> (m2, name) ∈ CallMode_info -> m1 = m2) /\
  (forall m1 m2 : CallMode, CallMode_value m1 = CallMode_value m2 -> m1 = m2).
Proof.
  unfold AccessType_info, CallMode_info.
  split; [|split; [|split; [|split]]].
  - intros []; eexists; (split; [repeat constructor|]);
      intros name'; rewrite !elem_of_cons, elem_of_nil; intuition congruence.
  - intros v1 v2 name. rewrite !elem_of_cons, !elem_of_nil. intuition congruence.
  - intros []; eexists; (split; [repeat constructor|]);
      intros name'; rewrite !elem_of_cons, elem_of_nil; intuition congruence.
  - intros m1 m2 name. rewrite !elem_of_cons, !elem_of_nil. intuition congruence.
  - intros [] []; simpl; intros H; try reflexivity; discriminate H.
Qed.
